(** * main_blinky.c (CORTEX_M3_MPS2_QEMU_GCC demo): waveform producer and
      temperature consumer

    A shallow embedding of [main_blinky.c]: the sending task that walks a
    triangular voltage waveform and packs it with a tick count into a 64-bit
    queue item, the receiving task that unpacks the item and converts the
    reading to a temperature, and the start-up routine that creates the queue
    and the two tasks.

    C integers are values of [Z] with the wrap-around of their type written
    out; the double-precision expression of the receiver is evaluated with the
    IEEE 754 binary64 operations of [SpecFloat]. *)

From Stdlib Require Import ZArith List Bool Lia SpecFloat.
Import ListNotations.
Local Open Scope Z_scope.

(** ** Integer types of the target (Cortex-M3, ILP32) *)

Module CInt.

(** Conversion to [uint32_t] / [unsigned long] / [TickType_t]. *)
Definition to_uint32 (z : Z) : Z := z mod 2 ^ 32.

(** Conversion to [uint64_t]. *)
Definition to_uint64 (z : Z) : Z := z mod 2 ^ 64.

(** Conversion to [long] (32 bits, two's complement). *)
Definition to_long (z : Z) : Z := (z + 2 ^ 31) mod 2 ^ 32 - 2 ^ 31.

Definition is_uint32 (z : Z) : Prop := 0 <= z < 2 ^ 32.
Definition is_long (z : Z) : Prop := - 2 ^ 31 <= z < 2 ^ 31.

End CInt.
Import CInt.

(** ** Constants of the file *)

Definition mainQUEUE_LENGTH : Z := 1.

Definition PRECISION : Z := 1000.
Definition VOLTAGE_LOWER_BOUND : Z := 0.
Definition VOLTAGE_UPPER_BOUND : Z := 10000.
Definition TEMPERATURE_LOWER_BOUND : Z := -25000.
Definition TEMPERATURE_UPPER_BOUND : Z := 85000.

(** [const long VOLTAGE_RANGE = VOLTAGE_UPPER_BOUND - VOLTAGE_LOWER_BOUND;]
    the difference is computed in [unsigned long] and stored in a [long]. *)
Definition VOLTAGE_RANGE : Z :=
  to_long (to_uint32 (VOLTAGE_UPPER_BOUND - VOLTAGE_LOWER_BOUND)).

(** [const long TEMPERATURE_RANGE = TEMPERATURE_UPPER_BOUND - TEMPERATURE_LOWER_BOUND;] *)
Definition TEMPERATURE_RANGE : Z :=
  to_long (TEMPERATURE_UPPER_BOUND - TEMPERATURE_LOWER_BOUND).

(** [static long GRADIENT = (VOLTAGE_UPPER_BOUND - VOLTAGE_LOWER_BOUND) / 20UL;]
    the initial value of the file-scope variable. *)
Definition GRADIENT_init : Z :=
  to_long (to_uint32 (VOLTAGE_UPPER_BOUND - VOLTAGE_LOWER_BOUND) / 20).

(** ** The waveform of [prvQueueSendTask] *)

(** The two variables the sending task updates in every period: its local
    [uint32_t ulValueToSend] and the file-scope [long GRADIENT]. *)
Record WaveformState : Type := MkWave {
  ulValueToSend : Z;
  GRADIENT : Z
}.

(** State of the task when it enters its loop:
    [uint32_t ulValueToSend = VOLTAGE_LOWER_BOUND;] *)
Definition wave_init : WaveformState :=
  {| ulValueToSend := to_uint32 VOLTAGE_LOWER_BOUND; GRADIENT := GRADIENT_init |}.

(** [GRADIENT *= -1;] *)
Definition negate_gradient (s : WaveformState) : WaveformState :=
  {| ulValueToSend := ulValueToSend s; GRADIENT := to_long (GRADIENT s * -1) |}.

(** Lines 106-110:
<<
  if(ulValueToSend >= VOLTAGE_UPPER_BOUND) {
      GRADIENT *= -1;
  } else if (GRADIENT < 0 && ulValueToSend <= VOLTAGE_LOWER_BOUND) {
      GRADIENT *= -1;
  }
>>
    Both comparisons of [ulValueToSend] are unsigned. *)
Definition choose_direction (s : WaveformState) : WaveformState :=
  if VOLTAGE_UPPER_BOUND <=? ulValueToSend s then negate_gradient s
  else if (GRADIENT s <? 0) && (ulValueToSend s <=? VOLTAGE_LOWER_BOUND)
       then negate_gradient s
       else s.

(** Line 113: [ulValueToSend += GRADIENT;] the sum is computed in
    [unsigned long] and stored in the [uint32_t]. *)
Definition add_gradient (s : WaveformState) : WaveformState :=
  {| ulValueToSend := to_uint32 (ulValueToSend s + to_uint32 (GRADIENT s));
     GRADIENT := GRADIENT s |}.

(** One waveform update: lines 106-113. *)
Definition update (s : WaveformState) : WaveformState :=
  add_gradient (choose_direction s).

(** [n] updates in a row. *)
Fixpoint updates (n : nat) (s : WaveformState) : WaveformState :=
  match n with
  | O => s
  | S k => updates k (update s)
  end.

(** The states the sending task goes through. *)
Inductive reachable : WaveformState -> Prop :=
| reach_init : reachable wave_init
| reach_update s : reachable s -> reachable (update s).

(** The update as the specification words it, over unbounded integers:
    negate [g] when [v >= RAW_HIGH], else negate it when [g < 0] and
    [v <= RAW_LOW]; then [v' = v + g]. *)
Definition spec_update (s : WaveformState) : WaveformState :=
  let v := ulValueToSend s in
  let g := GRADIENT s in
  let g' := if v >=? VOLTAGE_UPPER_BOUND then - g
            else if (g <? 0) && (v <=? VOLTAGE_LOWER_BOUND) then - g
            else g in
  {| ulValueToSend := v + g'; GRADIENT := g' |}.

(** The value of a [uint32_t] read as a two's complement 32-bit integer. *)
Definition as_signed (v : Z) : Z := to_long v.

(** ** The queue item *)

(** Lines 116-118:
<<
  uint64_t msg = ((uint64_t)xTaskGetTickCount()) << 32;
  msg |= ulValueToSend;
>> *)
Definition encode (tick value : Z) : Z :=
  let msg := to_uint64 (Z.shiftl (to_uint64 tick) 32) in
  Z.lor msg (to_uint64 value).

(** Lines 145-146:
<<
  TickType_t tick = (uint32_t) (ulReceivedValue >> 32);
  uint32_t reading = (uint32_t) ulReceivedValue;
>> *)
Definition decode (ulReceivedValue : Z) : Z * Z :=
  (to_uint32 (Z.shiftr ulReceivedValue 32), to_uint32 ulReceivedValue).

(** ** The conversion of [prvQueueReceiveTask] *)

(** C [double] is IEEE 754 binary64: 53 bits of precision, exponents below
    1024, round to nearest even. *)
Module Double.

Definition prec : Z := 53.
Definition emax : Z := 1024.

(** Conversion of an integer to [double] (exact below 2^53). *)
Definition of_Z (z : Z) : spec_float := binary_normalize prec emax z 0 false.

Definition div : spec_float -> spec_float -> spec_float := SFdiv prec emax.
Definition mul : spec_float -> spec_float -> spec_float := SFmul prec emax.
Definition add : spec_float -> spec_float -> spec_float := SFadd prec emax.

(** Conversion of a [double] to an integer type: the fractional part is
    discarded (truncation toward zero); infinities and NaN have no
    integer value. *)
Definition truncate (f : spec_float) : option Z :=
  match f with
  | S754_zero _ => Some 0
  | S754_finite s m e =>
      let magnitude :=
        if 0 <=? e then Zpos m * 2 ^ e else Zpos m / 2 ^ (- e) in
      Some (if s then - magnitude else magnitude)
  | S754_infinity _ | S754_nan => None
  end.

(** Conversion of a [double] to [long]: defined only when the truncated
    value is representable. *)
Definition to_long (f : spec_float) : option Z :=
  match truncate f with
  | Some z => if (- 2 ^ 31 <=? z) && (z <? 2 ^ 31) then Some z else None
  | None => None
  end.

End Double.

(** Line 149:
<<
  long temperature = (reading - VOLTAGE_LOWER_BOUND) / (double)VOLTAGE_RANGE
                     * TEMPERATURE_RANGE + TEMPERATURE_LOWER_BOUND;
>>
    [reading - VOLTAGE_LOWER_BOUND] is an [unsigned long]; the division, the
    product and the sum are computed in [double]; the result is converted to
    [long]. *)
Definition convert (reading : Z) : option Z :=
  let numerator := Double.of_Z (to_uint32 (reading - VOLTAGE_LOWER_BOUND)) in
  let ratio := Double.div numerator (Double.of_Z VOLTAGE_RANGE) in
  let scaled := Double.mul ratio (Double.of_Z TEMPERATURE_RANGE) in
  Double.to_long (Double.add scaled (Double.of_Z TEMPERATURE_LOWER_BOUND)).

(** The readings [lo], [lo + 1], ..., [lo + n - 1]. *)
Fixpoint readings_from (lo : Z) (n : nat) : list Z :=
  match n with
  | O => []
  | S k => lo :: readings_from (lo + 1) k
  end.

(** The readings from the lower voltage bound up to the one before the
    upper bound. *)
Definition readings_below_top : list Z :=
  readings_from VOLTAGE_LOWER_BOUND
    (Z.to_nat (VOLTAGE_UPPER_BOUND - VOLTAGE_LOWER_BOUND)).

(** [convert] is defined at [r] and at [r + 1] and grows between them. *)
Definition grows_at (r : Z) : bool :=
  match convert r, convert (r + 1) with
  | Some x, Some y => x <? y
  | _, _ => false
  end.

(** ** The queue between the tasks *)

(** Status returned by [xQueueSend]. *)
Inductive BaseType_t : Type := pdPASS | errQUEUE_FULL.

(** Modelled from the spec: [xQueueSend] belongs to the kernel (queue.c),
    which is not among the sources here.  The channel is a FIFO of fixed
    capacity [mainQUEUE_LENGTH]; a publish returns success or failure; with a
    zero block time a publish to a full channel fails at once and leaves the
    occupied slot alone.  With a non-zero block time the caller is suspended
    on a full queue: there is no result ([None]). *)
Definition xQueueSend (queue : list Z) (item : Z) (xTicksToWait : Z)
  : option (BaseType_t * list Z) :=
  if Z.of_nat (length queue) <? mainQUEUE_LENGTH
  then Some (pdPASS, queue ++ [item])
  else if xTicksToWait =? 0 then Some (errQUEUE_FULL, queue)
  else None.

(** What one pass of the sending task's loop reads and writes: the waveform,
    the queue, the tick counter it reads, and a log of its send attempts. *)
Record System : Type := MkSystem {
  wave : WaveformState;
  xQueue : list Z;
  xTickCount : Z;
  attempts : list (Z * BaseType_t)
}.

(** Task code: a state transformer that yields no result when the task is
    suspended inside a kernel call. *)
Definition Task (A : Type) : Type := System -> option (A * System).

Definition ret {A : Type} (a : A) : Task A := fun sys => Some (a, sys).

Definition bind {A B : Type} (m : Task A) (f : A -> Task B) : Task B :=
  fun sys =>
    match m sys with
    | Some (a, sys') => f a sys'
    | None => None
    end.

Notation "x <- m ;; k" := (bind m (fun x => k))
  (at level 61, m at next level, right associativity).
Notation "m ;;; k" := (bind m (fun _ => k))
  (at level 61, right associativity).

(** A statement that only touches the waveform variables. *)
Definition on_wave (f : WaveformState -> WaveformState) : Task unit :=
  fun sys => Some (tt, {| wave := f (wave sys); xQueue := xQueue sys;
                          xTickCount := xTickCount sys;
                          attempts := attempts sys |}).

Definition read_ulValueToSend : Task Z :=
  fun sys => Some (ulValueToSend (wave sys), sys).

(** Modelled from the spec: [xTaskGetTickCount] belongs to the kernel
    (tasks.c), not among the sources here; it reads the monotonic tick
    counter, an unsigned 32-bit count. *)
Definition xTaskGetTickCount : Task Z :=
  fun sys => Some (to_uint32 (xTickCount sys), sys).

(** The call [xQueueSend( xQueue, &msg, xTicksToWait )], logged. *)
Definition send (msg : Z) (xTicksToWait : Z) : Task BaseType_t :=
  fun sys =>
    match xQueueSend (xQueue sys) msg xTicksToWait with
    | Some (status, queue') =>
        Some (status, {| wave := wave sys; xQueue := queue';
                         xTickCount := xTickCount sys;
                         attempts := attempts sys ++ [(msg, status)] |})
    | None => None
    end.

(** The body of the loop of [prvQueueSendTask] after [vTaskDelayUntil] has
    returned (lines 105-124); the status of the send is not looked at. *)
Definition prvQueueSendTask_body : Task unit :=
  on_wave choose_direction ;;;
  on_wave add_gradient ;;;
  tick <- xTaskGetTickCount ;;
  value <- read_ulValueToSend ;;
  (let msg := encode tick value in
   send msg 0 ;;;
   ret tt).

(** Modelled from the spec: [vTaskDelayUntil] belongs to the kernel
    (tasks.c), not among the sources here.  The call
    [vTaskDelayUntil( &xNextWakeTime, mainQUEUE_SEND_FREQUENCY_MS )] of
    line 103 returns when the tick count has reached the wake time; the
    model is told the tick count [now] at which the task resumes. *)
Definition vTaskDelayUntil (now : Z) : Task unit :=
  fun sys => Some (tt, {| wave := wave sys; xQueue := xQueue sys;
                          xTickCount := now; attempts := attempts sys |}).

(** The loop of [prvQueueSendTask] (lines 100-125) run for as many passes
    as there are wake-up times, no other task running in between. *)
Fixpoint prvQueueSendTask_passes (wake : list Z) : Task unit :=
  match wake with
  | [] => ret tt
  | now :: later =>
      vTaskDelayUntil now ;;;
      prvQueueSendTask_body ;;;
      prvQueueSendTask_passes later
  end.

(** The queue has no free slot. *)
Definition queue_full (queue : list Z) : Prop :=
  Z.of_nat (length queue) = mainQUEUE_LENGTH.

(** ** Start-up *)

Inductive TaskCode : Type := prvQueueReceiveTask | prvQueueSendTask.

(** What the kernel answers to the calls of [main_blinky]; the answers depend
    on the heap that is left.  [xQueueCreate]: is the handle different from
    [NULL]; [xTaskCreate]: was the task created; [vTaskStartScheduler]: does
    the scheduler run (the call then never returns). *)
Record Kernel : Type := MkKernel {
  xQueueCreate : Z -> Z -> bool;
  xTaskCreate : TaskCode -> bool;
  vTaskStartScheduler : bool
}.

Inductive Call : Type :=
| CallQueueCreate (uxQueueLength uxItemSize : Z)
| CallTaskCreate (code : TaskCode)
| CallStartScheduler.

(** How [main_blinky] ends: inside the scheduler, which runs the tasks that
    exist, or in the empty loop [for( ;; );] of line 86. *)
Inductive Outcome : Type :=
| SchedulerRuns (tasks : list TaskCode)
| IdleLoop.

Record Startup : Type := MkStartup {
  calls : list Call;
  outcome : Outcome
}.

(** [main_blinky] (lines 53-87).  The results of the two [xTaskCreate] calls
    are discarded. *)
Definition main_blinky (k : Kernel) : Startup :=
  let uxItemSize := 8 (* sizeof( uint64_t ) *) in
  if xQueueCreate k mainQUEUE_LENGTH uxItemSize then
    let rx := if xTaskCreate k prvQueueReceiveTask
              then [prvQueueReceiveTask] else [] in
    let tx := if xTaskCreate k prvQueueSendTask
              then [prvQueueSendTask] else [] in
    let made := [CallQueueCreate mainQUEUE_LENGTH uxItemSize;
                 CallTaskCreate prvQueueReceiveTask;
                 CallTaskCreate prvQueueSendTask;
                 CallStartScheduler] in
    if vTaskStartScheduler k
    then {| calls := made; outcome := SchedulerRuns (rx ++ tx) |}
    else {| calls := made; outcome := IdleLoop |}
  else
    {| calls := [CallQueueCreate mainQUEUE_LENGTH uxItemSize];
       outcome := IdleLoop |}.

(** Some creation at start-up fails. *)
Definition creation_fails (k : Kernel) : Prop :=
  xQueueCreate k mainQUEUE_LENGTH 8 = false \/
  xTaskCreate k prvQueueReceiveTask = false \/
  xTaskCreate k prvQueueSendTask = false.

(** The start-up ended in the empty loop without starting the scheduler. *)
Definition halted_idle (r : Startup) : Prop :=
  outcome r = IdleLoop /\ ~ In CallStartScheduler (calls r).

(** ** Predicates on waveform states *)

(** A valid state in the sense of the specification: the value within the
    voltage bounds, the step of magnitude 500. *)
Definition valid_state (s : WaveformState) : Prop :=
  VOLTAGE_LOWER_BOUND <= ulValueToSend s <= VOLTAGE_UPPER_BOUND /\
  (GRADIENT s = 500 \/ GRADIENT s = -500).

(** What every update keeps true once it holds: going up, the value is at
    most one step above the upper bound; going down, it is within the bounds
    or has wrapped around by less than one step below zero. *)
Definition bounded_state (s : WaveformState) : Prop :=
  (GRADIENT s = 500 /\ 0 <= ulValueToSend s <= 10500) \/
  (GRADIENT s = -500 /\
   (0 <= ulValueToSend s <= 10000 \/ 2 ^ 32 - 500 < ulValueToSend s < 2 ^ 32)).

(** The value sent after the [n]-th update, from the initial state. *)
Definition sent (n : nat) : Z := ulValueToSend (updates n wave_init).

(** One period of the triangular waveform. *)
Definition triangle : list Z :=
  [  500; 1000; 1500; 2000; 2500; 3000; 3500; 4000; 4500;  5000;
    5500; 6000; 6500; 7000; 7500; 8000; 8500; 9000; 9500; 10000;
    9500; 9000; 8500; 8000; 7500; 7000; 6500; 6000; 5500;  5000;
    4500; 4000; 3500; 3000; 2500; 2000; 1500; 1000;  500;     0 ].

(** A sent value is within the voltage bounds and a multiple of 500. *)
Definition on_grid (v : Z) : bool :=
  (VOLTAGE_LOWER_BOUND <=? v) && (v <=? VOLTAGE_UPPER_BOUND) && (v mod 500 =? 0).

(** ** The receiving task *)

(** Modelled from the spec: [xQueueReceive] belongs to the kernel (queue.c),
    not among the sources here.  The call of line 142 waits without limit
    ([portMAX_DELAY], with [INCLUDE_vTaskSuspend] set as the comment of
    lines 139-141 asks): the oldest item is taken out of the queue; on an
    empty queue the caller is suspended and there is no result ([None]). *)
Definition xQueueReceive (queue : list Z) : option (Z * list Z) :=
  match queue with
  | [] => None
  | item :: rest => Some (item, rest)
  end.

(** Both tasks together: what the sending task works on, the counter
    [volatile uint32_t ulRxEvents] of line 128, and the arguments of the
    [printf] calls made so far (tick, temperature). *)
Record Board : Type := MkBoard {
  tx : System;
  ulRxEvents : Z;
  reports : list (Z * Z)
}.

(** How a piece of task code ends: it ran to its end, it was suspended
    inside a kernel call, or it left defined behaviour (a [double] that
    does not fit the [long] it is converted to). *)
Inductive Progress (A : Type) : Type :=
| Completed (a : A)
| Suspended
| Undefined.

Arguments Completed {A} a.
Arguments Suspended {A}.
Arguments Undefined {A}.

(** Lines 142-152 of [prvQueueReceiveTask]: take an item, split it, convert
    the reading, print tick and temperature. *)
Definition prvQueueReceiveTask_report (b : Board) : Progress Board :=
  match xQueueReceive (xQueue (tx b)) with
  | None => Suspended
  | Some (item, rest) =>
      let ulReceivedValue := to_uint64 item in
      let '(tick, reading) := decode ulReceivedValue in
      match convert reading with
      | None => Undefined
      | Some temperature =>
          Completed
            {| tx := {| wave := wave (tx b); xQueue := rest;
                        xTickCount := xTickCount (tx b);
                        attempts := attempts (tx b) |};
               ulRxEvents := ulRxEvents b;
               reports := reports b ++ [(tick, temperature)] |}
      end
  end.

(** Line 155, reached when [vTaskDelay(1000)] of line 154 has returned:
    [ulRxEvents++;] *)
Definition prvQueueReceiveTask_resume (b : Board) : Board :=
  {| tx := tx b;
     ulRxEvents := to_uint32 (ulRxEvents b + 1);
     reports := reports b |}.

(** One pass of the loop of [prvQueueReceiveTask] (lines 137-156). *)
Definition prvQueueReceiveTask_body (b : Board) : Progress Board :=
  match prvQueueReceiveTask_report b with
  | Completed b' => Completed (prvQueueReceiveTask_resume b')
  | Suspended => Suspended
  | Undefined => Undefined
  end.

(** One pass of the loop of [prvQueueSendTask], woken at tick [now]. *)
Definition prvQueueSendTask_pass (now : Z) (b : Board) : Progress Board :=
  match (vTaskDelayUntil now ;;; prvQueueSendTask_body) (tx b) with
  | Some (_, sys') =>
      Completed {| tx := sys'; ulRxEvents := ulRxEvents b; reports := reports b |}
  | None => Suspended
  end.


(** The temperature the affine map gives for a reading, in exact integer
    arithmetic (the quotient is exact: 110000 / 10000 = 11). *)
Definition affine (reading : Z) : Z :=
  (reading - VOLTAGE_LOWER_BOUND) * TEMPERATURE_RANGE / VOLTAGE_RANGE
  + TEMPERATURE_LOWER_BOUND.


(** Equality test on waveform states. *)
Definition same_state (a b : WaveformState) : bool :=
  (ulValueToSend a =? ulValueToSend b) && (GRADIENT a =? GRADIENT b).

(** After how many updates a valid state comes back: 40 on the grid of
    multiples of 500, 42 off it. *)
Definition period (s : WaveformState) : nat :=
  if ulValueToSend s mod 500 =? 0 then 40%nat else 42%nat.

(** The multiples of 500 within the voltage bounds. *)
Definition grid : list Z := map (fun k => 500 * Z.of_nat k) (seq 0 21).

(** The check that the states with value [v] come back after 40 updates,
    the initial state left out. *)
Definition grid_recurs_at (v : Z) : bool :=
  let up := {| ulValueToSend := v; GRADIENT := 500 |} in
  let down := {| ulValueToSend := v; GRADIENT := -500 |} in
  ((v =? 0) || same_state (updates 40 up) up)
  && same_state (updates 40 down) down.

(** All the readings within the voltage bounds. *)
Definition readings_within : list Z :=
  readings_from VOLTAGE_LOWER_BOUND
    (Z.to_nat (VOLTAGE_UPPER_BOUND - VOLTAGE_LOWER_BOUND + 1)).

(** The check that [convert] is defined at [r], within the temperature
    bounds, and off the affine value by at most 1, toward zero. *)
Definition accurate_at (r : Z) : bool :=
  match convert r with
  | Some t =>
      (TEMPERATURE_LOWER_BOUND <=? t) && (t <=? TEMPERATURE_UPPER_BOUND)
      && (Z.abs (affine r - t) <=? 1) && (Z.abs t <=? Z.abs (affine r))
  | None => false
  end.

(** The check that [convert] gives the affine value at [r]. *)
Definition exact_at (r : Z) : bool :=
  match convert r with
  | Some t => t =? affine r
  | None => false
  end.

(** The values the waveform can wrap to when it steps below zero by less
    than 500. *)
Definition wrapped_readings : list Z :=
  readings_from (2 ^ 32 - 499) 499.

(** The check that [convert] is not defined at [r]. *)
Definition unconvertible_at (r : Z) : bool :=
  match convert r with
  | Some _ => false
  | None => true
  end.

(** * Properties *)

(** ** Machine integers *)

Section Wrap.

Lemma to_uint32_small z : 0 <= z < 2 ^ 32 -> to_uint32 z = z.
Proof. intros H. unfold to_uint32. now apply Z.mod_small. Qed.

Lemma to_uint64_small z : 0 <= z < 2 ^ 64 -> to_uint64 z = z.
Proof. intros H. unfold to_uint64. now apply Z.mod_small. Qed.

Lemma to_uint32_range z : 0 <= to_uint32 z < 2 ^ 32.
Proof. unfold to_uint32. apply Z.mod_pos_bound. reflexivity. Qed.

Lemma to_uint32_below z : - 2 ^ 32 <= z < 0 -> to_uint32 z = z + 2 ^ 32.
Proof.
  intros H. unfold to_uint32.
  symmetry. apply (Z.mod_unique z (2 ^ 32) (-1)); lia.
Qed.

Lemma to_uint32_above z : 2 ^ 32 <= z < 2 * 2 ^ 32 -> to_uint32 z = z - 2 ^ 32.
Proof.
  intros H. unfold to_uint32.
  symmetry. apply (Z.mod_unique z (2 ^ 32) 1); lia.
Qed.

(** Adding a [long] to a [uint32_t] in unsigned arithmetic is addition
    modulo 2^32. *)
Lemma to_uint32_add_long v g :
  to_uint32 (v + to_uint32 g) = to_uint32 (v + g).
Proof. unfold to_uint32. apply Zplus_mod_idemp_r. Qed.

Lemma to_long_small z : - 2 ^ 31 <= z < 2 ^ 31 -> to_long z = z.
Proof.
  intros H. unfold to_long. rewrite Z.mod_small; lia.
Qed.

Lemma to_long_high z : 2 ^ 31 <= z < 2 ^ 32 -> to_long z = z - 2 ^ 32.
Proof.
  intros H. unfold to_long.
  rewrite <- (Z.mod_unique (z + 2 ^ 31) (2 ^ 32) 1 (z - 2 ^ 31)); lia.
Qed.

(** Negating a [long] other than [LONG_MIN]. *)
Lemma to_long_negate g : - 2 ^ 31 < g < 2 ^ 31 -> to_long (g * -1) = - g.
Proof. intros H. rewrite to_long_small by lia. lia. Qed.

(** Reading a wrapped value back as a signed one. *)
Lemma as_signed_wrap w : - 2 ^ 31 <= w < 2 ^ 31 -> as_signed (to_uint32 w) = w.
Proof.
  intros H. unfold as_signed.
  destruct (Z.neg_nonneg_cases w) as [Hneg | Hpos].
  - rewrite to_uint32_below by lia. rewrite to_long_high; lia.
  - rewrite to_uint32_small by lia. apply to_long_small; lia.
Qed.

End Wrap.

(** ** C1: the queue item *)

Section Item.

Variables tick value : Z.
Hypothesis tick_range : 0 <= tick < 2 ^ 32.
Hypothesis value_range : 0 <= value < 2 ^ 32.

Lemma shifted_tick_fits : 0 <= Z.shiftl tick 32 < 2 ^ 64.
Proof. rewrite Z.shiftl_mul_pow2 by lia. lia. Qed.

(** The 64-bit arithmetic of the sender never wraps. *)
Lemma encode_plain : encode tick value = Z.lor (Z.shiftl tick 32) value.
Proof.
  unfold encode.
  rewrite (to_uint64_small tick) by lia.
  rewrite (to_uint64_small (Z.shiftl tick 32)) by apply shifted_tick_fits.
  rewrite (to_uint64_small value) by lia.
  reflexivity.
Qed.

Lemma encode_high : Z.shiftr (encode tick value) 32 = tick.
Proof.
  rewrite encode_plain, Z.shiftr_lor.
  rewrite Z.shiftr_shiftl_l by lia.
  rewrite Z.sub_diag, Z.shiftl_0_r.
  rewrite (Z.shiftr_div_pow2 value) by lia.
  rewrite Z.div_small by lia.
  apply Z.lor_0_r.
Qed.

Lemma encode_low : Z.land (encode tick value) 0xFFFFFFFF = value.
Proof.
  rewrite encode_plain.
  change 0xFFFFFFFF with (Z.ones 32).
  rewrite Z.land_lor_distr_l.
  rewrite !Z.land_ones by lia.
  rewrite Z.shiftl_mul_pow2 by lia.
  rewrite Z.mod_mul by lia.
  rewrite Z.mod_small by lia.
  reflexivity.
Qed.

Lemma uint32_is_mask w : to_uint32 w = Z.land w 0xFFFFFFFF.
Proof.
  change 0xFFFFFFFF with (Z.ones 32).
  rewrite Z.land_ones by lia. reflexivity.
Qed.

Lemma decode_encode : decode (encode tick value) = (tick, value).
Proof.
  unfold decode.
  rewrite encode_high, (uint32_is_mask (encode _ _)), encode_low.
  rewrite to_uint32_small by lia. reflexivity.
Qed.

End Item.

(** C1. Round trip of the queue item: for a tick count [t] of 32 bits and a
    raw value [v] between 0 and 10000, the word the sender builds is
    [(t << 32) | v], the receiver reads from it [word >> 32] and
    [word & 0xFFFFFFFF], and these are [t] and [v]. *)
Theorem encode_decode_roundtrip (t v : Z) :
  0 <= t < 2 ^ 32 ->
  VOLTAGE_LOWER_BOUND <= v <= VOLTAGE_UPPER_BOUND ->
  let word := encode t v in
  word = Z.lor (Z.shiftl t 32) v /\
  decode word = (Z.shiftr word 32, Z.land word 0xFFFFFFFF) /\
  decode word = (t, v).
Proof.
  intros Ht Hv word. unfold VOLTAGE_LOWER_BOUND, VOLTAGE_UPPER_BOUND in Hv.
  assert (Hv32 : 0 <= v < 2 ^ 32) by lia.
  pose proof (decode_encode t v Ht Hv32) as Hround.
  split; [apply encode_plain; assumption |].
  split; [| exact Hround].
  subst word. rewrite Hround.
  rewrite encode_high, encode_low by assumption. reflexivity.
Qed.

(** The scenario of the specification: tick 7, value 500. *)
Lemma encode_decode_roundtrip_7_500 :
  encode 7 500 = Z.lor (Z.shiftl 7 32) 500 /\
  decode (encode 7 500) = (Z.shiftr (encode 7 500) 32, Z.land (encode 7 500) 0xFFFFFFFF) /\
  decode (encode 7 500) = (7, 500).
Proof.
  apply (encode_decode_roundtrip 7 500);
    unfold VOLTAGE_LOWER_BOUND, VOLTAGE_UPPER_BOUND; lia.
Defined.

(** ** The waveform update *)

(** Unfold one update and split on the tests of lines 106 and 108. *)
Ltac update_cases :=
  unfold update, choose_direction, add_gradient, negate_gradient,
    VOLTAGE_UPPER_BOUND, VOLTAGE_LOWER_BOUND;
  cbn [ulValueToSend GRADIENT];
  repeat match goal with
    | |- context [?a <=? ?b] => destruct (Z.leb_spec a b)
    | |- context [?a <? ?b] => destruct (Z.ltb_spec a b)
    | |- context [?a >=? ?b] => rewrite (Z.geb_leb a b)
    end;
  cbn [andb ulValueToSend GRADIENT].

Lemma updates_last n s : updates (S n) s = update (updates n s).
Proof.
  revert s. induction n as [| n IH]; intros s; [reflexivity |].
  change (updates (S (S n)) s) with (updates (S n) (update s)).
  rewrite IH. reflexivity.
Qed.

Lemma updates_add a b s : updates (a + b) s = updates b (updates a s).
Proof.
  revert s. induction a as [| a IH]; intros s; [reflexivity |].
  cbn [Nat.add updates]. apply IH.
Qed.

(** The code and the specification's update agree on the gradient, and on
    the value up to the wrap-around of [uint32_t]. *)
Lemma update_refines s :
  - 2 ^ 31 < GRADIENT s < 2 ^ 31 ->
  update s = {| ulValueToSend := to_uint32 (ulValueToSend (spec_update s));
                GRADIENT := GRADIENT (spec_update s) |}.
Proof.
  intros Hg. destruct s as [v g]. cbn [GRADIENT] in Hg.
  unfold spec_update. update_cases;
    rewrite ?to_uint32_add_long, ?to_long_negate by lia;
    reflexivity || lia.
Qed.

Lemma valid_is_bounded s : valid_state s -> bounded_state s.
Proof.
  unfold valid_state, bounded_state, VOLTAGE_LOWER_BOUND, VOLTAGE_UPPER_BOUND.
  intros [Hv [Hg | Hg]]; [left | right]; lia.
Qed.

Lemma init_is_valid : valid_state wave_init.
Proof.
  unfold valid_state, wave_init, VOLTAGE_LOWER_BOUND, VOLTAGE_UPPER_BOUND.
  cbn [ulValueToSend GRADIENT]. split; [vm_compute; split; discriminate |].
  left. reflexivity.
Qed.

(** The invariant is kept by the update. *)
Lemma bounded_update s : bounded_state s -> bounded_state (update s).
Proof.
  destruct s as [v g]. unfold bounded_state. cbn [ulValueToSend GRADIENT].
  intros [[-> Hv] | [-> Hv]]; update_cases;
    rewrite ?to_uint32_add_long;
    change (to_long (500 * -1)) with (-500);
    change (to_long (-500 * -1)) with 500;
    try lia;
    unfold to_uint32; change (2 ^ 32) with 4294967296 in *;
    Z.div_mod_to_equations; lia.
Qed.

Lemma bounded_updates n s : bounded_state s -> bounded_state (updates n s).
Proof.
  revert s. induction n as [| n IH]; intros s Hs; [exact Hs |].
  cbn [updates]. apply IH, bounded_update, Hs.
Qed.

Lemma reachable_bounded s : reachable s -> bounded_state s.
Proof.
  induction 1 as [| s _ IH].
  - apply valid_is_bounded, init_is_valid.
  - apply bounded_update, IH.
Qed.

Lemma bounded_signed s :
  bounded_state s -> -500 <= as_signed (ulValueToSend s) <= 10500.
Proof.
  unfold bounded_state, as_signed. intros [[_ Hv] | [_ [Hv | Hv]]].
  - rewrite to_long_small; lia.
  - rewrite to_long_small; lia.
  - rewrite to_long_high; lia.
Qed.

(** C2 (as amended). One update follows the asymmetric reflection rule of
    the specification for the gradient: negated when the value is at least
    10000 whatever its sign, else negated when it is negative and the value
    is at most 0.  The new value is the old one plus the new gradient
    modulo 2^32, the type being [uint32_t]: it is [v + g] exactly when that
    sum is within 0 .. 2^32 - 1, and then, for [v] at most 10000, it is at
    most [|g|] above 10000; when the sum is negative the value is
    [2^32 + v + g].  From (10000, +500) the update gives (9500, -500). *)
Theorem update_follows_reflection (s : WaveformState) :
  is_uint32 (ulValueToSend s) ->
  - 2 ^ 31 < GRADIENT s < 2 ^ 31 ->
  let v' := ulValueToSend (spec_update s) in
  GRADIENT (update s) = GRADIENT (spec_update s) /\
  ulValueToSend (update s) = to_uint32 v' /\
  (is_uint32 v' <-> update s = spec_update s) /\
  (is_uint32 v' -> ulValueToSend s <= VOLTAGE_UPPER_BOUND ->
   ulValueToSend (update s) <= VOLTAGE_UPPER_BOUND + Z.abs (GRADIENT s)) /\
  (v' < 0 -> ulValueToSend (update s) = 2 ^ 32 + v') /\
  update {| ulValueToSend := 10000; GRADIENT := 500 |} =
    {| ulValueToSend := 9500; GRADIENT := -500 |}.
Proof.
  intros Hv Hg v'. rewrite (update_refines s Hg). cbn [ulValueToSend GRADIENT].
  fold v'.
  assert (Hsum : Z.abs (v' - ulValueToSend s) = Z.abs (GRADIENT s)).
  { subst v'. unfold spec_update. cbn [ulValueToSend GRADIENT].
    destruct (ulValueToSend s >=? VOLTAGE_UPPER_BOUND); [lia |].
    destruct ((GRADIENT s <? 0) && (ulValueToSend s <=? VOLTAGE_LOWER_BOUND)); lia. }
  unfold is_uint32 in *.
  split; [reflexivity |]. split; [reflexivity |].
  split; [| split; [| split; [| reflexivity]]].
  - split.
    + intros Hfits. rewrite to_uint32_small by exact Hfits.
      subst v'. destruct (spec_update s); reflexivity.
    + intros Heq. apply (f_equal ulValueToSend) in Heq.
      cbn [ulValueToSend] in Heq. fold v' in Heq. rewrite <- Heq.
      apply to_uint32_range.
  - intros Hfits Htop. rewrite to_uint32_small by exact Hfits.
    unfold VOLTAGE_UPPER_BOUND in *. lia.
  - intros Hneg. rewrite to_uint32_below; lia.
Qed.

Lemma update_follows_reflection_at_upper_bound :
  let s := {| ulValueToSend := 10000; GRADIENT := 500 |} in
  let v' := ulValueToSend (spec_update s) in
  GRADIENT (update s) = GRADIENT (spec_update s) /\
  ulValueToSend (update s) = to_uint32 v' /\
  (is_uint32 v' <-> update s = spec_update s) /\
  (is_uint32 v' -> ulValueToSend s <= VOLTAGE_UPPER_BOUND ->
   ulValueToSend (update s) <= VOLTAGE_UPPER_BOUND + Z.abs (GRADIENT s)) /\
  (v' < 0 -> ulValueToSend (update s) = 2 ^ 32 + v') /\
  update s = {| ulValueToSend := 9500; GRADIENT := -500 |}.
Proof.
  apply (update_follows_reflection {| ulValueToSend := 10000; GRADIENT := 500 |});
    unfold is_uint32; cbn [ulValueToSend GRADIENT]; lia.
Defined.

(** C2, as stated, fails: from (300, -500) the code does not yield
    [v + g = -200] but the wrapped 4294967096, which is further than one
    step above the upper bound. *)
Lemma update_wraps_below_zero :
  let s := {| ulValueToSend := 300; GRADIENT := -500 |} in
  update s = {| ulValueToSend := 4294967096; GRADIENT := -500 |} /\
  spec_update s = {| ulValueToSend := -200; GRADIENT := -500 |} /\
  update s <> spec_update s /\
  ~ (ulValueToSend (update s) <= VOLTAGE_UPPER_BOUND + Z.abs (GRADIENT (update s))).
Proof.
  cbv zeta. repeat split; try reflexivity.
  - intros H. discriminate H.
  - vm_compute. intros H. apply H. reflexivity.
Qed.

(** C3 (as amended). From any valid state (value in 0 .. 10000, step +500
    or -500), after any number of updates the value, read as a signed
    32-bit integer, lies in -500 .. 10500: as the [uint32_t] it is, it lies
    in 0 .. 10500 or has wrapped to the last 500 values below 2^32.  The
    step keeps magnitude 500. *)
Theorem waveform_bounded (s : WaveformState) (n : nat) :
  valid_state s ->
  let s' := updates n s in
  VOLTAGE_LOWER_BOUND - 500 <= as_signed (ulValueToSend s') <= VOLTAGE_UPPER_BOUND + 500 /\
  (0 <= ulValueToSend s' <= VOLTAGE_UPPER_BOUND + 500 \/
   2 ^ 32 - 500 <= ulValueToSend s' < 2 ^ 32) /\
  Z.abs (GRADIENT s') = 500.
Proof.
  intros Hs s'.
  assert (Hb : bounded_state s') by apply bounded_updates, valid_is_bounded, Hs.
  pose proof (bounded_signed s' Hb) as Hsigned.
  unfold VOLTAGE_LOWER_BOUND, VOLTAGE_UPPER_BOUND.
  split; [lia |].
  unfold bounded_state in Hb. lia.
Qed.

Lemma waveform_bounded_from_300_down :
  let s' := updates 3 {| ulValueToSend := 300; GRADIENT := -500 |} in
  VOLTAGE_LOWER_BOUND - 500 <= as_signed (ulValueToSend s') <= VOLTAGE_UPPER_BOUND + 500 /\
  (0 <= ulValueToSend s' <= VOLTAGE_UPPER_BOUND + 500 \/
   2 ^ 32 - 500 <= ulValueToSend s' < 2 ^ 32) /\
  Z.abs (GRADIENT s') = 500.
Proof.
  apply (waveform_bounded {| ulValueToSend := 300; GRADIENT := -500 |} 3).
  unfold valid_state, VOLTAGE_LOWER_BOUND, VOLTAGE_UPPER_BOUND.
  cbn [ulValueToSend GRADIENT]. lia.
Defined.

(** C3, as stated, fails: (300, -500) is a valid state and one update
    takes the value to 4294967096, outside -500 .. 10500. *)
Lemma waveform_leaves_stated_range :
  let s := {| ulValueToSend := 300; GRADIENT := -500 |} in
  valid_state s /\
  ~ (VOLTAGE_LOWER_BOUND - 500 <= ulValueToSend (updates 1 s) <= VOLTAGE_UPPER_BOUND + 500).
Proof.
  cbv zeta. split.
  - unfold valid_state, VOLTAGE_LOWER_BOUND, VOLTAGE_UPPER_BOUND.
    cbn [ulValueToSend GRADIENT]. lia.
  - vm_compute. intros [_ H]. apply H. reflexivity.
Qed.


(** ** C4: the descent after the upper bound *)

Section Descent.

Variables v g : Z.
Hypothesis step_range : 0 < g <= VOLTAGE_UPPER_BOUND.
Hypothesis at_top : VOLTAGE_UPPER_BOUND <= v < VOLTAGE_UPPER_BOUND + g.

Let top : WaveformState := {| ulValueToSend := v; GRADIENT := g |}.

(** The update that finds the value at the top turns the step around. *)
Lemma turn_at_top :
  update top = {| ulValueToSend := v - g; GRADIENT := - g |}.
Proof.
  unfold VOLTAGE_UPPER_BOUND in *. subst top. update_cases; try lia.
  rewrite to_uint32_add_long, to_long_negate by lia.
  f_equal. rewrite to_uint32_small; lia.
Qed.

(** While going down, an update that finds the value strictly between the
    bounds takes one more step down and leaves the step alone. *)
Lemma step_down w :
  0 < w < VOLTAGE_UPPER_BOUND ->
  update {| ulValueToSend := w; GRADIENT := - g |} =
    {| ulValueToSend := to_uint32 (w - g); GRADIENT := - g |}.
Proof.
  unfold VOLTAGE_UPPER_BOUND in *. intros Hw. update_cases; try lia.
  rewrite to_uint32_add_long. reflexivity.
Qed.

(** Going down, an update that finds the value at 0, or wrapped below 0 by
    less than a step, turns the step around again. *)
Lemma turn_at_bottom w :
  - g < w <= 0 ->
  GRADIENT (update {| ulValueToSend := to_uint32 w; GRADIENT := - g |}) = g.
Proof.
  unfold VOLTAGE_UPPER_BOUND in *. intros Hw.
  assert (Hcases : w = 0 \/ w < 0) by lia.
  destruct Hcases as [-> | Hneg].
  - change (to_uint32 0) with 0. update_cases; try lia.
    rewrite to_long_negate; lia.
  - rewrite to_uint32_below by lia. update_cases; try lia.
    rewrite to_long_negate; lia.
Qed.

(** The whole descent: as long as every earlier update found a value above
    0, the state after [n] updates is [n] steps below the top. *)
Lemma descent n :
  (1 <= n)%nat ->
  (forall k, (1 <= k < n)%nat ->
             0 < as_signed (ulValueToSend (updates k top))) ->
  updates n top =
    {| ulValueToSend := to_uint32 (v - Z.of_nat n * g); GRADIENT := - g |} /\
  - g < v - Z.of_nat n * g < VOLTAGE_UPPER_BOUND.
Proof.
  induction n as [| n IH]; [lia |].
  intros _ Habove.
  destruct n as [| n].
  - change (updates 1 top) with (update top). rewrite turn_at_top.
    unfold VOLTAGE_UPPER_BOUND in *.
    rewrite to_uint32_small by lia.
    split; [f_equal; lia | lia].
  - destruct IH as [Hstate Hrange]; [lia | intros k Hk; apply Habove; lia |].
    specialize (Habove (S n) ltac:(lia)).
    rewrite Hstate in Habove. cbn [ulValueToSend] in Habove.
    unfold VOLTAGE_UPPER_BOUND in *.
    rewrite as_signed_wrap in Habove by lia.
    rewrite updates_last, Hstate.
    rewrite (to_uint32_small (v - _)) by lia.
    rewrite step_down by (unfold VOLTAGE_UPPER_BOUND; lia).
    split; [f_equal; f_equal; lia | lia].
Qed.

End Descent.

(** C4 (as amended). From a state going up (step [g > 0], at most 10000)
    whose value has reached the upper bound by less than one step
    ([10000 <= v < 10000 + g]), the step is negative after the next update,
    and it is negative after every later update as long as each update
    before it found a value above 0 (the value read as a signed 32-bit
    integer).  The first update that finds the value at or below 0, in
    that reading, makes the step positive again. *)
Theorem reflection_at_upper_bound (v g : Z) (n : nat) :
  0 < g <= VOLTAGE_UPPER_BOUND ->
  VOLTAGE_UPPER_BOUND <= v < VOLTAGE_UPPER_BOUND + g ->
  let top := {| ulValueToSend := v; GRADIENT := g |} in
  (1 <= n)%nat ->
  (forall k, (1 <= k < n)%nat ->
             VOLTAGE_LOWER_BOUND < as_signed (ulValueToSend (updates k top))) ->
  GRADIENT (updates n top) < 0 /\
  (as_signed (ulValueToSend (updates n top)) <= VOLTAGE_LOWER_BOUND ->
   0 < GRADIENT (updates (S n) top)).
Proof.
  intros Hg Hv top Hn Habove.
  destruct (descent v g Hg Hv n Hn Habove) as [Hstate Hrange].
  pose proof (turn_at_bottom g Hg (v - Z.of_nat n * g)) as Hturn.
  fold top in Hstate. rewrite Hstate. cbn [ulValueToSend GRADIENT].
  unfold VOLTAGE_UPPER_BOUND, VOLTAGE_LOWER_BOUND in *.
  split; [lia |].
  rewrite as_signed_wrap by lia. intros Hlow.
  rewrite updates_last, Hstate, Hturn; lia.
Qed.

Lemma reflection_at_upper_bound_from_10000 :
  let top := {| ulValueToSend := 10000; GRADIENT := 500 |} in
  GRADIENT (updates 2 top) < 0 /\
  (as_signed (ulValueToSend (updates 2 top)) <= VOLTAGE_LOWER_BOUND ->
   0 < GRADIENT (updates 3 top)).
Proof.
  apply (reflection_at_upper_bound 10000 500 2).
  - unfold VOLTAGE_UPPER_BOUND. lia.
  - unfold VOLTAGE_UPPER_BOUND. lia.
  - lia.
  - intros k Hk. assert (k = 1%nat) as -> by lia. vm_compute. reflexivity.
Defined.

(** C4, as stated, fails: (10000, -500) has its value at the upper bound,
    and the next update makes the step positive, the negation of line 107
    being unconditional. *)
Lemma reflection_fails_when_descending :
  let s := {| ulValueToSend := 10000; GRADIENT := -500 |} in
  VOLTAGE_UPPER_BOUND <= ulValueToSend s /\
  update s = {| ulValueToSend := 10500; GRADIENT := 500 |} /\
  ~ (GRADIENT (update s) < 0).
Proof.
  cbv zeta. split; [discriminate |]. split; [reflexivity |].
  vm_compute. discriminate.
Qed.

(** ** C9 and C10: the trajectory of the sending task *)

(** C9. The gradient starts at (10000 - 0) / 20 = 500; an update of a
    reachable state leaves it as it is or negates it; so in every reachable
    state its absolute value is 500. *)
Theorem gradient_magnitude (s : WaveformState) :
  reachable s ->
  GRADIENT wave_init = (VOLTAGE_UPPER_BOUND - VOLTAGE_LOWER_BOUND) / 20 /\
  GRADIENT wave_init = 500 /\
  (GRADIENT (update s) = GRADIENT s \/ GRADIENT (update s) = - GRADIENT s) /\
  Z.abs (GRADIENT s) = 500.
Proof.
  intros Hs. split; [reflexivity |]. split; [reflexivity |].
  assert (Hmag : Z.abs (GRADIENT s) = 500).
  { pose proof (reachable_bounded s Hs) as Hb. unfold bounded_state in Hb. lia. }
  split; [| exact Hmag].
  rewrite (update_refines s) by lia. cbn [GRADIENT].
  unfold spec_update. cbn [GRADIENT].
  destruct (ulValueToSend s >=? VOLTAGE_UPPER_BOUND); [right; reflexivity |].
  destruct ((GRADIENT s <? 0) && (ulValueToSend s <=? VOLTAGE_LOWER_BOUND));
    [right | left]; reflexivity.
Qed.

Lemma gradient_magnitude_after_two_updates :
  let s := update (update wave_init) in
  GRADIENT wave_init = (VOLTAGE_UPPER_BOUND - VOLTAGE_LOWER_BOUND) / 20 /\
  GRADIENT wave_init = 500 /\
  (GRADIENT (update s) = GRADIENT s \/ GRADIENT (update s) = - GRADIENT s) /\
  Z.abs (GRADIENT s) = 500.
Proof.
  apply (gradient_magnitude (update (update wave_init))).
  apply reach_update, reach_update, reach_init.
Defined.

(** After the first update the states repeat every 40 updates (the state
    after 40 updates is (0, -500), not the initial (0, +500)). *)
Lemma states_repeat n :
  (1 <= n)%nat -> updates (40 + n) wave_init = updates n wave_init.
Proof.
  intros Hn. destruct n as [| k]; [lia |].
  replace (40 + S k)%nat with (41 + k)%nat by lia.
  rewrite (updates_add 41 k), (updates_add 1 k).
  f_equal.
Qed.

Lemma sent_repeats n : sent (40 + n) = sent n.
Proof.
  unfold sent. destruct n as [| k].
  - reflexivity.
  - rewrite states_repeat by lia. reflexivity.
Qed.

(** Every sent value is one of the first 40. *)
Lemma sent_in_first_period n :
  (1 <= n)%nat -> exists k, (1 <= k <= 40)%nat /\ sent n = sent k.
Proof.
  induction n as [n IH] using lt_wf_ind. intros Hn.
  destruct (Nat.le_gt_cases n 40) as [Hle | Hgt].
  - exists n. split; [lia | reflexivity].
  - destruct (IH (n - 40)%nat) as [k [Hk Heq]]; [lia | lia |].
    exists k. split; [exact Hk |].
    rewrite <- Heq. replace n with (40 + (n - 40))%nat at 1 by lia.
    apply sent_repeats.
Qed.

Lemma first_period : map sent (seq 1 40) = triangle.
Proof. vm_compute. reflexivity. Qed.

Lemma triangle_on_grid : forallb on_grid triangle = true.
Proof. vm_compute. reflexivity. Qed.

(** C10. From the initial state (0, +500) the values after the updates
    are 500, 1000, ..., 10000, 9500, ..., 500, 0, and repeat with period
    40; every value sent is within 0 .. 10000 and a multiple of 500. *)
Theorem trajectory_periodic (n : nat) :
  wave_init = {| ulValueToSend := 0; GRADIENT := 500 |} /\
  map sent (seq 1 40) = triangle /\
  sent (n + 40) = sent n /\
  (VOLTAGE_LOWER_BOUND <= sent (S n) <= VOLTAGE_UPPER_BOUND /\
   sent (S n) mod 500 = 0).
Proof.
  split; [reflexivity |]. split; [exact first_period |].
  split; [rewrite Nat.add_comm; apply sent_repeats |].
  destruct (sent_in_first_period (S n)) as [k [Hk ->]]; [lia |].
  assert (Hin : In (sent k) triangle).
  { rewrite <- first_period. apply in_map, in_seq. lia. }
  pose proof (proj1 (forallb_forall on_grid triangle) triangle_on_grid _ Hin) as Hgrid.
  unfold on_grid in Hgrid.
  apply andb_prop in Hgrid as [Hgrid Hmod].
  apply andb_prop in Hgrid as [Hlo Hhi].
  split; [split; [apply Z.leb_le, Hlo | apply Z.leb_le, Hhi] |].
  apply Z.eqb_eq, Hmod.
Qed.

(** ** C5 and C6: the conversion to temperature *)

Lemma readings_from_length lo n : length (readings_from lo n) = n.
Proof.
  revert lo. induction n as [| n IH]; intros lo; [reflexivity |].
  cbn [readings_from length]. now rewrite IH.
Qed.

Lemma readings_from_in lo n r :
  lo <= r < lo + Z.of_nat n -> In r (readings_from lo n).
Proof.
  revert lo. induction n as [| n IH]; intros lo Hr; [lia |].
  cbn [readings_from]. destruct (Z.eq_dec lo r) as [-> | Hne].
  - left. reflexivity.
  - right. apply IH. lia.
Qed.

(** The table of the readings, checked by evaluation: from each
    reading to the next the temperature grows. *)
Lemma grows_everywhere : forallb grows_at readings_below_top = true.
Proof. vm_compute. reflexivity. Qed.

Lemma grows_at_reading r :
  VOLTAGE_LOWER_BOUND <= r < VOLTAGE_UPPER_BOUND ->
  exists x y, convert r = Some x /\ convert (r + 1) = Some y /\ x < y.
Proof.
  intros Hr.
  assert (Hin : In r readings_below_top).
  { apply readings_from_in. rewrite Z2Nat.id; unfold VOLTAGE_UPPER_BOUND, VOLTAGE_LOWER_BOUND in *; lia. }
  pose proof (proj1 (forallb_forall _ _) grows_everywhere r Hin) as Hgrow.
  unfold grows_at in Hgrow.
  destruct (convert r) as [x |]; [| discriminate].
  destruct (convert (r + 1)) as [y |]; [| discriminate].
  exists x, y. repeat split. apply Z.ltb_lt, Hgrow.
Qed.

Lemma convert_increasing_by d a :
  VOLTAGE_LOWER_BOUND <= a ->
  a + Z.of_nat (S d) <= VOLTAGE_UPPER_BOUND ->
  exists x y, convert a = Some x /\ convert (a + Z.of_nat (S d)) = Some y /\ x < y.
Proof.
  induction d as [| d IH]; intros Hlo Hhi.
  - apply grows_at_reading. lia.
  - destruct IH as [x [y [Hx [Hy Hxy]]]]; [lia | lia |].
    destruct (grows_at_reading (a + Z.of_nat (S d))) as [y' [z [Hy' [Hz Hyz]]]];
      [lia |].
    rewrite Hy in Hy'. injection Hy' as <-.
    exists x, z. split; [exact Hx |]. split; [| lia].
    rewrite <- Hz. f_equal. lia.
Qed.

(** C5. The conversion maps the lower voltage bound to the lower
    temperature bound and the upper one to the upper one, exactly, and is
    increasing on the readings 0 .. 10000: a larger reading gives a larger
    temperature. *)
Theorem convert_linear (a b : Z) :
  VOLTAGE_LOWER_BOUND <= a -> a < b -> b <= VOLTAGE_UPPER_BOUND ->
  convert VOLTAGE_LOWER_BOUND = Some TEMPERATURE_LOWER_BOUND /\
  convert VOLTAGE_UPPER_BOUND = Some TEMPERATURE_UPPER_BOUND /\
  exists x y, convert a = Some x /\ convert b = Some y /\ x < y.
Proof.
  intros Ha Hab Hb.
  split; [vm_compute; reflexivity |]. split; [vm_compute; reflexivity |].
  replace b with (a + Z.of_nat (S (Z.to_nat (b - a - 1)))) by lia.
  apply convert_increasing_by; lia.
Qed.

Lemma convert_linear_2273_2274 :
  convert VOLTAGE_LOWER_BOUND = Some TEMPERATURE_LOWER_BOUND /\
  convert VOLTAGE_UPPER_BOUND = Some TEMPERATURE_UPPER_BOUND /\
  exists x y, convert 2273 = Some x /\ convert 2274 = Some y /\ x < y.
Proof.
  apply (convert_linear 2273 2274);
    unfold VOLTAGE_LOWER_BOUND, VOLTAGE_UPPER_BOUND; lia.
Defined.

(** C6. The reading 5000, the middle of 0 .. 10000, converts to 30000, the
    middle of -25000 .. 85000. *)
Theorem convert_midpoint :
  convert 5000 = Some 30000 /\
  2 * 5000 = VOLTAGE_LOWER_BOUND + VOLTAGE_UPPER_BOUND /\
  2 * 30000 = TEMPERATURE_LOWER_BOUND + TEMPERATURE_UPPER_BOUND.
Proof. vm_compute. repeat split. Qed.

(** ** C7: sending to a full queue *)

Section FullQueue.

Variable sys : System.
Hypothesis full : queue_full (xQueue sys).

Lemma send_fails msg :
  xQueueSend (xQueue sys) msg 0 = Some (errQUEUE_FULL, xQueue sys).
Proof.
  unfold xQueueSend. red in full. rewrite full. reflexivity.
Qed.

(** One pass over a full queue: the waveform has moved on, the queue is as
    it was, one failed attempt has been logged. *)
Lemma body_on_full_queue :
  prvQueueSendTask_body sys =
    Some (tt, {| wave := update (wave sys);
                 xQueue := xQueue sys;
                 xTickCount := xTickCount sys;
                 attempts := attempts sys ++
                   [(encode (to_uint32 (xTickCount sys))
                            (ulValueToSend (update (wave sys))),
                     errQUEUE_FULL)] |}).
Proof.
  unfold prvQueueSendTask_body, bind, on_wave, xTaskGetTickCount,
    read_ulValueToSend, send, ret.
  cbn [wave xQueue xTickCount attempts].
  rewrite send_fails. reflexivity.
Qed.

End FullQueue.

Lemma passes_on_full_queue wake : forall sys,
  queue_full (xQueue sys) ->
  exists sys' log,
    prvQueueSendTask_passes wake sys = Some (tt, sys') /\
    wave sys' = updates (length wake) (wave sys) /\
    xQueue sys' = xQueue sys /\
    attempts sys' = attempts sys ++ log /\
    length log = length wake /\
    Forall (fun attempt => snd attempt = errQUEUE_FULL) log.
Proof.
  induction wake as [| now later IH]; intros sys Hfull.
  - exists sys, []. cbn. rewrite app_nil_r. repeat split. constructor.
  - cbn [prvQueueSendTask_passes].
    unfold bind at 1. unfold vTaskDelayUntil.
    unfold bind at 1. rewrite body_on_full_queue by exact Hfull.
    cbn [wave xQueue xTickCount attempts].
    match goal with
    | |- context [prvQueueSendTask_passes later ?s] =>
        destruct (IH s Hfull) as (sys' & log & Hrun & Hwave & Hqueue & Hlog & Hlen & Hall)
    end.
    cbn [wave xQueue xTickCount attempts] in *.
    eexists sys', (_ :: log). split; [exact Hrun |].
    split; [exact Hwave |]. split; [exact Hqueue |].
    split; [rewrite Hlog, <- app_assoc; reflexivity |].
    split; [cbn [length]; now rewrite Hlen |].
    constructor; [reflexivity | exact Hall].
Qed.

(** C7. The sender publishes with a block time of 0.  When the queue of
    capacity 1 is full, the send fails at once with the queue untouched;
    the pass of the loop still completes (the task is not suspended), with
    the waveform updated as usual and exactly one attempt made, its status
    discarded; and the following passes go on in the same way. *)
Theorem publish_on_full_queue_drops (sys : System) (wake : list Z) :
  queue_full (xQueue sys) ->
  mainQUEUE_LENGTH = 1 /\
  (forall msg, xQueueSend (xQueue sys) msg 0 = Some (errQUEUE_FULL, xQueue sys)) /\
  prvQueueSendTask_body sys =
    Some (tt, {| wave := update (wave sys);
                 xQueue := xQueue sys;
                 xTickCount := xTickCount sys;
                 attempts := attempts sys ++
                   [(encode (to_uint32 (xTickCount sys))
                            (ulValueToSend (update (wave sys))),
                     errQUEUE_FULL)] |}) /\
  exists sys' log,
    prvQueueSendTask_passes wake sys = Some (tt, sys') /\
    wave sys' = updates (length wake) (wave sys) /\
    xQueue sys' = xQueue sys /\
    attempts sys' = attempts sys ++ log /\
    length log = length wake /\
    Forall (fun attempt => snd attempt = errQUEUE_FULL) log.
Proof.
  intros Hfull. split; [reflexivity |].
  split; [intros msg; apply send_fails, Hfull |].
  split; [apply body_on_full_queue, Hfull |].
  apply passes_on_full_queue, Hfull.
Qed.

Lemma publish_on_full_queue_drops_example :
  let sys := {| wave := wave_init; xQueue := [encode 1000 500];
                xTickCount := 2000; attempts := [] |} in
  mainQUEUE_LENGTH = 1 /\
  (forall msg, xQueueSend (xQueue sys) msg 0 = Some (errQUEUE_FULL, xQueue sys)) /\
  prvQueueSendTask_body sys =
    Some (tt, {| wave := update (wave sys);
                 xQueue := xQueue sys;
                 xTickCount := xTickCount sys;
                 attempts := attempts sys ++
                   [(encode (to_uint32 (xTickCount sys))
                            (ulValueToSend (update (wave sys))),
                     errQUEUE_FULL)] |}) /\
  exists sys' log,
    prvQueueSendTask_passes [3000; 4000] sys = Some (tt, sys') /\
    wave sys' = updates (length [3000; 4000]) (wave sys) /\
    xQueue sys' = xQueue sys /\
    attempts sys' = attempts sys ++ log /\
    length log = length [3000; 4000] /\
    Forall (fun attempt => snd attempt = errQUEUE_FULL) log.
Proof.
  apply (publish_on_full_queue_drops
           {| wave := wave_init; xQueue := [encode 1000 500];
              xTickCount := 2000; attempts := [] |} [3000; 4000]).
  reflexivity.
Defined.

(** ** C8: start-up *)

(** C8 (as amended). When the creation of the queue fails, [main_blinky]
    makes no further call: no task is created, the scheduler is not
    started, the creation is not tried again; it ends in the empty loop. *)
Theorem startup_without_queue_halts (k : Kernel) :
  xQueueCreate k mainQUEUE_LENGTH 8 = false ->
  main_blinky k =
    {| calls := [CallQueueCreate mainQUEUE_LENGTH 8]; outcome := IdleLoop |} /\
  halted_idle (main_blinky k) /\
  (forall code, ~ In (CallTaskCreate code) (calls (main_blinky k))).
Proof.
  intros Hqueue. unfold halted_idle, main_blinky. rewrite Hqueue.
  cbn [calls outcome In].
  split; [reflexivity |]. split; [split; [reflexivity |] |].
  - intros [H | []]. discriminate H.
  - intros code [H | []]. discriminate H.
Qed.

Lemma startup_without_queue_halts_example :
  let k := {| xQueueCreate := fun _ _ => false;
              xTaskCreate := fun _ => true;
              vTaskStartScheduler := true |} in
  main_blinky k =
    {| calls := [CallQueueCreate mainQUEUE_LENGTH 8]; outcome := IdleLoop |} /\
  halted_idle (main_blinky k) /\
  (forall code, ~ In (CallTaskCreate code) (calls (main_blinky k))).
Proof.
  apply (startup_without_queue_halts
           {| xQueueCreate := fun _ _ => false;
              xTaskCreate := fun _ => true;
              vTaskStartScheduler := true |}).
  reflexivity.
Defined.

(** C8, as stated, fails: when the queue is created, the receiving task
    is not and the sending task is, the scheduler is started all the same
    and runs the sending task alone. *)
Lemma startup_with_missing_task_runs :
  let k := {| xQueueCreate := fun _ _ => true;
              xTaskCreate := fun code =>
                match code with
                | prvQueueReceiveTask => false
                | prvQueueSendTask => true
                end;
              vTaskStartScheduler := true |} in
  creation_fails k /\
  outcome (main_blinky k) = SchedulerRuns [prvQueueSendTask] /\
  In CallStartScheduler (calls (main_blinky k)) /\
  ~ halted_idle (main_blinky k).
Proof.
  cbv zeta. split; [right; left; reflexivity |].
  split; [reflexivity |].
  split; [cbn; tauto |].
  intros [H _]. discriminate H.
Qed.

(** * Further properties of the code *)

(** ** The queue item as a number *)

Lemma encode_sum t v :
  0 <= t < 2 ^ 32 -> 0 <= v < 2 ^ 32 -> encode t v = t * 2 ^ 32 + v.
Proof.
  intros Ht Hv.
  rewrite (Z.div_mod (encode t v) (2 ^ 32)) by lia.
  rewrite <- Z.shiftr_div_pow2 by lia.
  rewrite encode_high by assumption.
  rewrite <- (Z.land_ones (encode t v) 32) by lia.
  change (Z.ones 32) with 0xFFFFFFFF.
  rewrite encode_low by assumption.
  lia.
Qed.

(** The word is the tick count followed by the value: tick times 2^32 plus
    value, below 2^64.  Words are ordered as their tick counts are, and
    different (tick, value) pairs give different words. *)
Theorem encode_is_concatenation (t v t' v' : Z) :
  is_uint32 t -> is_uint32 v -> is_uint32 t' -> is_uint32 v' ->
  encode t v = t * 2 ^ 32 + v /\
  0 <= encode t v < 2 ^ 64 /\
  (t < t' -> encode t v < encode t' v') /\
  (encode t v = encode t' v' -> t = t' /\ v = v').
Proof.
  unfold is_uint32. intros Ht Hv Ht' Hv'.
  rewrite (encode_sum t v), (encode_sum t' v') by assumption.
  repeat split; lia.
Qed.

Lemma encode_is_concatenation_example :
  encode 7 500 = 7 * 2 ^ 32 + 500 /\
  0 <= encode 7 500 < 2 ^ 64 /\
  (7 < 8 -> encode 7 500 < encode 8 0) /\
  (encode 7 500 = encode 8 0 -> 7 = 8 /\ 500 = 0).
Proof.
  apply (encode_is_concatenation 7 500 8 0); unfold is_uint32; lia.
Defined.

(** Every 64-bit word splits into a tick count and a reading of 32 bits
    each, and packing these gives the word back: the receiver loses no bit
    of the item. *)
Theorem decode_then_encode (w : Z) :
  0 <= w < 2 ^ 64 ->
  is_uint32 (fst (decode w)) /\
  is_uint32 (snd (decode w)) /\
  encode (fst (decode w)) (snd (decode w)) = w.
Proof.
  intros Hw. unfold decode, is_uint32. cbn [fst snd].
  assert (Hhigh : 0 <= Z.shiftr w 32 < 2 ^ 32).
  { rewrite Z.shiftr_div_pow2 by lia.
    split; [apply Z.div_pos; lia | apply Z.div_lt_upper_bound; lia]. }
  rewrite (to_uint32_small (Z.shiftr w 32)) by exact Hhigh.
  pose proof (to_uint32_range w) as Hlow.
  repeat split; try lia.
  rewrite encode_sum by lia.
  rewrite Z.shiftr_div_pow2 by lia. unfold to_uint32.
  rewrite (Z.div_mod w (2 ^ 32)) at 3 by lia. lia.
Qed.

Lemma decode_then_encode_example :
  is_uint32 (fst (decode 0xFFFFFFFF00002710)) /\
  is_uint32 (snd (decode 0xFFFFFFFF00002710)) /\
  encode (fst (decode 0xFFFFFFFF00002710)) (snd (decode 0xFFFFFFFF00002710))
    = 0xFFFFFFFF00002710.
Proof.
  apply (decode_then_encode 0xFFFFFFFF00002710). lia.
Defined.

(** ** Where the waveform gets stuck, and where it comes back *)

Section Stuck.

Variable s : WaveformState.
Hypothesis above : VOLTAGE_UPPER_BOUND <= ulValueToSend s.
Hypothesis room : ulValueToSend s + Z.abs (GRADIENT s) < 2 ^ 32.
Hypothesis gradient_range : - 2 ^ 31 < GRADIENT s < 2 ^ 31.
Hypothesis turned :
  GRADIENT s < 0 \/ VOLTAGE_UPPER_BOUND + GRADIENT s <= ulValueToSend s.




End Stuck.



Lemma same_state_eq a b : same_state a b = true -> a = b.
Proof.
  destruct a as [va ga], b as [vb gb]. unfold same_state.
  cbn [ulValueToSend GRADIENT]. intros H.
  apply andb_prop in H as [Hv Hg].
  apply Z.eqb_eq in Hv, Hg. now subst.
Qed.

(** [k] steps up, none of them starting at or above the upper bound. *)
Lemma climb k : forall v v',
  0 <= v -> v' = v + 500 * Z.of_nat k -> v' < 10500 ->
  updates k {| ulValueToSend := v; GRADIENT := 500 |} =
    {| ulValueToSend := v'; GRADIENT := 500 |}.
Proof.
  induction k as [| k IH]; intros v v' Hv Hv' Htop.
  - cbn [updates]. f_equal. lia.
  - cbn [updates].
    assert (Hstep : update {| ulValueToSend := v; GRADIENT := 500 |} =
                    {| ulValueToSend := v + 500; GRADIENT := 500 |}).
    { update_cases; try lia;
        rewrite to_uint32_add_long, to_uint32_small by lia; reflexivity. }
    rewrite Hstep. apply IH; lia.
Qed.

(** [k] steps down, none of them starting at or below zero; the last one
    may wrap. *)
Lemma descend k : forall v w,
  0 <= v < 10000 -> w = v - 500 * Z.of_nat k -> -500 < w ->
  updates k {| ulValueToSend := v; GRADIENT := -500 |} =
    {| ulValueToSend := to_uint32 w; GRADIENT := -500 |}.
Proof.
  induction k as [| k IH]; intros v w Hv Hw Hlow.
  - cbn [updates]. f_equal. rewrite to_uint32_small; lia.
  - cbn [updates].
    assert (Hstep : update {| ulValueToSend := v; GRADIENT := -500 |} =
                    {| ulValueToSend := to_uint32 (v - 500); GRADIENT := -500 |}).
    { update_cases; try lia; rewrite to_uint32_add_long; reflexivity. }
    rewrite Hstep.
    destruct k as [| k].
    + cbn [updates]. f_equal. f_equal. lia.
    + rewrite to_uint32_small by lia. apply IH; lia.
Qed.

Lemma turn_down v :
  10000 <= v < 10500 ->
  update {| ulValueToSend := v; GRADIENT := 500 |} =
    {| ulValueToSend := v - 500; GRADIENT := -500 |}.
Proof.
  intros Hv. update_cases; try lia;
    rewrite to_uint32_add_long; change (to_long (500 * -1)) with (-500);
    rewrite to_uint32_small by lia; reflexivity.
Qed.

Lemma turn_up_wrapped w :
  -500 < w < 0 ->
  update {| ulValueToSend := to_uint32 w; GRADIENT := -500 |} =
    {| ulValueToSend := w + 500; GRADIENT := 500 |}.
Proof.
  intros Hw. rewrite to_uint32_below by lia. update_cases; try lia;
    rewrite to_uint32_add_long; change (to_long (-500 * -1)) with 500;
    rewrite to_uint32_above by lia; f_equal; lia.
Qed.

(** Off the grid the waveform takes 42 updates to come back: 20 steps
    each way, the two turns, and the step that wraps below zero. *)
Lemma off_grid_recurs v g :
  0 <= v <= 10000 -> v mod 500 <> 0 -> g = 500 \/ g = -500 ->
  updates 42 {| ulValueToSend := v; GRADIENT := g |} =
    {| ulValueToSend := v; GRADIENT := g |}.
Proof.
  intros Hv Hoff Hg.
  pose proof (Z.mod_pos_bound v 500 ltac:(lia)) as Hr.
  pose proof (Z.div_mod v 500 ltac:(lia)) as Hsplit.
  remember (v mod 500) as r eqn:Er. remember (Z.to_nat (v / 500)) as q eqn:Eq.
  assert (Hq : v = r + 500 * Z.of_nat q /\ (q <= 19)%nat).
  { subst q. rewrite Z2Nat.id by (apply Z.div_pos; lia). lia. }
  clear Er Eq Hsplit. destruct Hq as [-> Hq].
  destruct Hg as [-> | ->].
  - replace 42%nat with ((20 - q) + (1 + (20 + (1 + q))))%nat by lia.
    rewrite !updates_add.
    rewrite (climb (20 - q) _ (r + 10000)) by lia.
    change (updates 1 ?s) with (update s). rewrite turn_down by lia.
    rewrite (descend 20 _ (r - 500)) by lia.
    change (updates 1 ?s) with (update s). rewrite turn_up_wrapped by lia.
    apply climb; lia.
  - replace 42%nat with (S q + (1 + (20 + (1 + (19 - q)))))%nat by lia.
    rewrite !updates_add.
    rewrite (descend (S q) _ (r - 500)) by lia.
    change (updates 1 ?s) with (update s). rewrite turn_up_wrapped by lia.
    rewrite (climb 20 _ (r + 10000)) by lia.
    change (updates 1 ?s) with (update s). rewrite turn_down by lia.
    rewrite (descend (19 - q) _ (r + 500 * Z.of_nat q)) by lia.
    rewrite to_uint32_small by lia. reflexivity.
Qed.

Lemma grid_recurs : forallb grid_recurs_at grid = true.
Proof. vm_compute. reflexivity. Qed.

Lemma on_grid_recurs v g :
  0 <= v <= 10000 -> v mod 500 = 0 -> g = 500 \/ g = -500 ->
  {| ulValueToSend := v; GRADIENT := g |} <> wave_init ->
  updates 40 {| ulValueToSend := v; GRADIENT := g |} =
    {| ulValueToSend := v; GRADIENT := g |}.
Proof.
  intros Hv Hon Hg Hinit.
  assert (Hin : In v grid).
  { unfold grid. apply in_map_iff. exists (Z.to_nat (v / 500)). split.
    - rewrite Z2Nat.id by (apply Z.div_pos; lia).
      symmetry. apply Z_div_exact_full_2; [lia | exact Hon].
    - apply in_seq. assert (v / 500 <= 20) by (apply Z.div_le_upper_bound; lia).
      assert (0 <= v / 500) by (apply Z.div_pos; lia). lia. }
  pose proof (proj1 (forallb_forall _ _) grid_recurs v Hin) as Hrec.
  unfold grid_recurs_at in Hrec. apply andb_prop in Hrec as [Hup Hdown].
  destruct Hg as [-> | ->].
  - apply orb_prop in Hup as [Hzero | Hup].
    + apply Z.eqb_eq in Hzero. subst v. exfalso. apply Hinit. reflexivity.
    + apply same_state_eq, Hup.
  - apply same_state_eq, Hdown.
Qed.

Lemma state_in_first_period n :
  (1 <= n)%nat ->
  exists k, (1 <= k <= 40)%nat /\ updates n wave_init = updates k wave_init.
Proof.
  induction n as [n IH] using lt_wf_ind. intros Hn.
  destruct (Nat.le_gt_cases n 40) as [Hle | Hgt].
  - exists n. split; [lia | reflexivity].
  - destruct (IH (n - 40)%nat) as [k [Hk Heq]]; [lia | lia |].
    exists k. split; [exact Hk |].
    rewrite <- Heq. replace n with (40 + (n - 40))%nat at 1 by lia.
    apply states_repeat. lia.
Qed.

Lemma first_period_leaves_init :
  forallb (fun k => negb (same_state (updates k wave_init) wave_init))
          (seq 1 40) = true.
Proof. vm_compute. reflexivity. Qed.

(** Every valid state other than the initial one comes back to itself:
    after 40 updates when its value is a multiple of 500, after 42
    otherwise.  The initial state (0, +500) is never reached again. *)
Theorem valid_states_recur (s : WaveformState) (n : nat) :
  valid_state s -> s <> wave_init -> (1 <= n)%nat ->
  updates (period s) s = s /\
  updates n wave_init <> wave_init.
Proof.
  intros [Hv Hg] Hinit Hn. split.
  - destruct s as [v g]. unfold period, VOLTAGE_LOWER_BOUND, VOLTAGE_UPPER_BOUND in *.
    cbn [ulValueToSend GRADIENT] in *.
    destruct (Z.eqb_spec (v mod 500) 0) as [Hon | Hoff].
    + apply on_grid_recurs; assumption.
    + apply off_grid_recurs; assumption.
  - destruct (state_in_first_period n Hn) as [k [Hk ->]].
    assert (Hin : In k (seq 1 40)) by (apply in_seq; lia).
    pose proof (proj1 (forallb_forall _ _) first_period_leaves_init _ Hin) as Hne.
    cbv beta in Hne. intros Heq. rewrite Heq in Hne.
    vm_compute in Hne. discriminate Hne.
Qed.

Lemma valid_states_recur_example :
  let s := {| ulValueToSend := 300; GRADIENT := -500 |} in
  updates (period s) s = s /\
  updates 41 wave_init <> wave_init.
Proof.
  apply (valid_states_recur {| ulValueToSend := 300; GRADIENT := -500 |} 41).
  - unfold valid_state, VOLTAGE_LOWER_BOUND, VOLTAGE_UPPER_BOUND.
    cbn [ulValueToSend GRADIENT]. lia.
  - intros H. discriminate H.
  - lia.
Defined.

(** ** How close the conversion is to the affine map *)

Lemma affine_linear r : affine r = 11 * r - 25000.
Proof.
  unfold affine.
  change TEMPERATURE_RANGE with 110000. change VOLTAGE_RANGE with 10000.
  change VOLTAGE_LOWER_BOUND with 0. change TEMPERATURE_LOWER_BOUND with (-25000).
  replace ((r - 0) * 110000) with (11 * r * 10000) by lia.
  rewrite Z.div_mul by lia. lia.
Qed.

(** The table of the readings within the bounds, checked by evaluation. *)
Lemma accurate_everywhere : forallb accurate_at readings_within = true.
Proof. vm_compute. reflexivity. Qed.

(** For every reading within the voltage bounds the conversion is defined,
    stays within the temperature bounds, and differs from the affine value
    [11 * reading - 25000] by at most 1, never away from zero (the
    [double] is truncated).  The difference does occur: the reading 1254
    gives -11205, the affine value being -11206. *)
Theorem convert_accuracy (r : Z) :
  VOLTAGE_LOWER_BOUND <= r <= VOLTAGE_UPPER_BOUND ->
  affine r = 11 * r - 25000 /\
  (exists t, convert r = Some t /\
             TEMPERATURE_LOWER_BOUND <= t <= TEMPERATURE_UPPER_BOUND /\
             Z.abs (affine r - t) <= 1 /\
             Z.abs t <= Z.abs (affine r)) /\
  convert 1254 = Some (-11205) /\ affine 1254 = -11206.
Proof.
  intros Hr. split; [apply affine_linear |].
  split; [| split; vm_compute; reflexivity].
  assert (Hin : In r readings_within).
  { apply readings_from_in. rewrite Z2Nat.id;
      unfold VOLTAGE_LOWER_BOUND, VOLTAGE_UPPER_BOUND in *; lia. }
  pose proof (proj1 (forallb_forall _ _) accurate_everywhere r Hin) as Hacc.
  unfold accurate_at in Hacc.
  destruct (convert r) as [t |]; [| discriminate].
  apply andb_prop in Hacc as [Hacc Hzero].
  apply andb_prop in Hacc as [Hacc Hone].
  apply andb_prop in Hacc as [Hlo Hhi].
  exists t. split; [reflexivity |].
  apply Z.leb_le in Hlo, Hhi, Hone, Hzero. lia.
Qed.

Lemma convert_accuracy_example :
  affine 1254 = 11 * 1254 - 25000 /\
  (exists t, convert 1254 = Some t /\
             TEMPERATURE_LOWER_BOUND <= t <= TEMPERATURE_UPPER_BOUND /\
             Z.abs (affine 1254 - t) <= 1 /\
             Z.abs t <= Z.abs (affine 1254)) /\
  convert 1254 = Some (-11205) /\ affine 1254 = -11206.
Proof.
  apply (convert_accuracy 1254).
  unfold VOLTAGE_LOWER_BOUND, VOLTAGE_UPPER_BOUND. lia.
Defined.

Lemma triangle_exact : forallb exact_at triangle = true.
Proof. vm_compute. reflexivity. Qed.

Lemma sent_in_triangle n : (1 <= n)%nat -> In (sent n) triangle.
Proof.
  intros Hn. destruct (sent_in_first_period n Hn) as [k [Hk ->]].
  rewrite <- first_period. apply in_map, in_seq. lia.
Qed.

Lemma sent_exact n : convert (sent n) = Some (affine (sent n)).
Proof.
  destruct n as [| n]; [vm_compute; reflexivity |].
  pose proof (proj1 (forallb_forall _ _) triangle_exact _
                (sent_in_triangle (S n) ltac:(lia))) as Hexact.
  unfold exact_at in Hexact.
  destruct (convert (sent (S n))) as [t |]; [| discriminate].
  apply Z.eqb_eq in Hexact. now subst.
Qed.

(** On the values the sending task really sends the conversion is exact:
    the value after any number of updates from the initial state is
    [500 * k] for some [k] from 0 to 20, and its temperature is
    [-25000 + 5500 * k]. *)
Theorem sent_values_convert_exactly (n : nat) :
  exists k, 0 <= k <= 20 /\
            sent n = 500 * k /\
            convert (sent n) = Some (TEMPERATURE_LOWER_BOUND + 5500 * k).
Proof.
  exists (sent n / 500).
  assert (Hgrid : on_grid (sent n) = true).
  { destruct n as [| n]; [reflexivity |].
    apply (proj1 (forallb_forall _ _) triangle_on_grid).
    apply sent_in_triangle. lia. }
  unfold on_grid, VOLTAGE_LOWER_BOUND, VOLTAGE_UPPER_BOUND in Hgrid.
  apply andb_prop in Hgrid as [Hgrid Hmod].
  apply andb_prop in Hgrid as [Hlo Hhi].
  apply Z.leb_le in Hlo, Hhi. apply Z.eqb_eq in Hmod.
  assert (Hk : sent n = 500 * (sent n / 500)).
  { apply Z_div_exact_full_2; [lia | exact Hmod]. }
  split; [lia |]. split; [exact Hk |].
  rewrite sent_exact, affine_linear.
  unfold TEMPERATURE_LOWER_BOUND. f_equal. lia.
Qed.

(** ** The sending task in any state *)

Lemma update_value_range s : 0 <= ulValueToSend (update s) < 2 ^ 32.
Proof. unfold update, add_gradient. cbn [ulValueToSend]. apply to_uint32_range. Qed.

Lemma body_in_general sys :
  let msg := encode (to_uint32 (xTickCount sys))
                    (ulValueToSend (update (wave sys))) in
  let room := Z.of_nat (length (xQueue sys)) <? mainQUEUE_LENGTH in
  prvQueueSendTask_body sys =
    Some (tt, {| wave := update (wave sys);
                 xQueue := if room then xQueue sys ++ [msg] else xQueue sys;
                 xTickCount := xTickCount sys;
                 attempts := attempts sys ++
                   [(msg, if room then pdPASS else errQUEUE_FULL)] |}).
Proof.
  unfold prvQueueSendTask_body, bind, on_wave, xTaskGetTickCount,
    read_ulValueToSend, send, ret, xQueueSend.
  cbn [wave xQueue xTickCount attempts].
  fold (update (wave sys)).
  destruct (Z.of_nat (length (xQueue sys)) <? mainQUEUE_LENGTH); reflexivity.
Qed.

(** Whatever the state of the queue, a pass of the sending task runs to
    its end (a block time of 0 never suspends it) and moves the waveform
    on; it makes one send attempt, with an item that decodes to the tick
    count read and the new value; the attempt succeeds, and the item is
    appended, exactly when the queue held less than [mainQUEUE_LENGTH]
    items, and otherwise the queue is left as it was. *)
Theorem sender_pass_always_completes (sys : System) :
  let msg := encode (to_uint32 (xTickCount sys))
                    (ulValueToSend (update (wave sys))) in
  exists status sys',
    prvQueueSendTask_body sys = Some (tt, sys') /\
    wave sys' = update (wave sys) /\
    attempts sys' = attempts sys ++ [(msg, status)] /\
    decode msg = (to_uint32 (xTickCount sys), ulValueToSend (update (wave sys))) /\
    (status = pdPASS <-> Z.of_nat (length (xQueue sys)) < mainQUEUE_LENGTH) /\
    xQueue sys' = match status with
                  | pdPASS => xQueue sys ++ [msg]
                  | errQUEUE_FULL => xQueue sys
                  end.
Proof.
  intros msg. pose proof (body_in_general sys) as Hbody. cbv zeta in Hbody.
  fold msg in Hbody.
  destruct (Z.ltb_spec (Z.of_nat (length (xQueue sys))) mainQUEUE_LENGTH)
    as [Hroom | Hfull].
  - eexists pdPASS, _. split; [exact Hbody |]. cbn [wave xQueue attempts].
    repeat split; try reflexivity; try (intros _; assumption).
    apply decode_encode; [apply to_uint32_range | apply update_value_range].
  - eexists errQUEUE_FULL, _. split; [exact Hbody |]. cbn [wave xQueue attempts].
    repeat split; try reflexivity; try discriminate; try lia.
    apply decode_encode; [apply to_uint32_range | apply update_value_range].
Qed.

(** ** From the sending task to the receiving task *)

Lemma encode_fits t v :
  0 <= t < 2 ^ 32 -> 0 <= v < 2 ^ 32 -> to_uint64 (encode t v) = encode t v.
Proof.
  intros Ht Hv. apply to_uint64_small. rewrite encode_sum by assumption. lia.
Qed.

(** A pass of the sender on an empty queue, then a pass of the receiver. *)
Lemma pass_then_body b now :
  xQueue (tx b) = [] ->
  let v' := ulValueToSend (update (wave (tx b))) in
  let msg := encode (to_uint32 now) v' in
  let b1 := {| tx := {| wave := update (wave (tx b));
                        xQueue := [msg];
                        xTickCount := now;
                        attempts := attempts (tx b) ++ [(msg, pdPASS)] |};
               ulRxEvents := ulRxEvents b;
               reports := reports b |} in
  prvQueueSendTask_pass now b = Completed b1 /\
  prvQueueReceiveTask_body b1 =
    match convert v' with
    | Some temperature =>
        Completed
          {| tx := {| wave := update (wave (tx b));
                      xQueue := [];
                      xTickCount := now;
                      attempts := attempts (tx b) ++ [(msg, pdPASS)] |};
             ulRxEvents := to_uint32 (ulRxEvents b + 1);
             reports := reports b ++ [(to_uint32 now, temperature)] |}
    | None => Undefined
    end.
Proof.
  intros Hempty v' msg b1. split.
  - unfold prvQueueSendTask_pass, bind at 1, vTaskDelayUntil.
    rewrite body_in_general. cbn [wave xQueue xTickCount attempts].
    rewrite Hempty. reflexivity.
  - unfold prvQueueReceiveTask_body, prvQueueReceiveTask_report.
    subst b1. cbn [tx xQueue xQueueReceive wave xTickCount attempts ulRxEvents reports].
    subst msg.
    rewrite encode_fits by (apply to_uint32_range || apply update_value_range).
    rewrite decode_encode by (apply to_uint32_range || apply update_value_range).
    fold v'. destruct (convert v'); reflexivity.
Qed.









(** ** A wrapped waveform value at the receiving task *)

(** The table of the wrapped values, checked by evaluation. *)
Lemma wrapped_unconvertible : forallb unconvertible_at wrapped_readings = true.
Proof. vm_compute. reflexivity. Qed.

Lemma wrapped_has_no_conversion r :
  2 ^ 32 - 500 < r < 2 ^ 32 -> convert r = None.
Proof.
  intros Hr.
  assert (Hin : In r wrapped_readings).
  { apply readings_from_in. lia. }
  pose proof (proj1 (forallb_forall _ _) wrapped_unconvertible r Hin) as Hnone.
  unfold unconvertible_at in Hnone.
  destruct (convert r); [discriminate | reflexivity].
Qed.

(** When the waveform steps below zero (going down by 500 from a value
    between 1 and 499) the value wraps to [2^32 + v - 500]; the sending
    task sends it all the same, and the receiving task that takes it
    converts a [double] of about 4.7e10 to [long], which it does not fit:
    the behaviour of the receiver is undefined. *)
Theorem wrapped_value_breaks_receiver (b : Board) (now v : Z) :
  xQueue (tx b) = [] ->
  wave (tx b) = {| ulValueToSend := v; GRADIENT := -500 |} ->
  0 < v < 500 ->
  ulValueToSend (update (wave (tx b))) = 2 ^ 32 + v - 500 /\
  exists b1,
    prvQueueSendTask_pass now b = Completed b1 /\
    xQueue (tx b1) = [encode (to_uint32 now) (2 ^ 32 + v - 500)] /\
    prvQueueReceiveTask_body b1 = Undefined.
Proof.
  intros Hempty Hwave Hv.
  assert (Hwrap : ulValueToSend (update (wave (tx b))) = 2 ^ 32 + v - 500).
  { rewrite Hwave. update_cases; try lia.
    rewrite to_uint32_add_long, to_uint32_below; lia. }
  split; [exact Hwrap |].
  destruct (pass_then_body b now Hempty) as [Hpass Hbody].
  rewrite Hwrap in Hpass, Hbody.
  rewrite wrapped_has_no_conversion in Hbody by lia.
  eexists. split; [exact Hpass |]. split; [reflexivity | exact Hbody].
Qed.

Lemma wrapped_value_breaks_receiver_example :
  let b := {| tx := {| wave := {| ulValueToSend := 300; GRADIENT := -500 |};
                       xQueue := []; xTickCount := 0; attempts := [] |};
              ulRxEvents := 0; reports := [] |} in
  ulValueToSend (update (wave (tx b))) = 2 ^ 32 + 300 - 500 /\
  exists b1,
    prvQueueSendTask_pass 1000 b = Completed b1 /\
    xQueue (tx b1) = [encode (to_uint32 1000) (2 ^ 32 + 300 - 500)] /\
    prvQueueReceiveTask_body b1 = Undefined.
Proof.
  apply (wrapped_value_breaks_receiver
           {| tx := {| wave := {| ulValueToSend := 300; GRADIENT := -500 |};
                       xQueue := []; xTickCount := 0; attempts := [] |};
              ulRxEvents := 0; reports := [] |} 1000 300).
  - reflexivity.
  - reflexivity.
  - lia.
Defined.

(** ** Every way [main_blinky] can go *)


(** ** The sending task while the receiving task does not run *)

(** When the receiving task takes nothing, the queue keeps the oldest
    sample: of the passes the sending task makes from an empty queue, the
    first send succeeds and its item stays in the queue; every later send
    fails and its sample is lost, while the waveform moves on at every
    pass. *)
Theorem stalled_receiver_keeps_oldest (sys : System) (now : Z) (later : list Z) :
  xQueue sys = [] ->
  let msg := encode (to_uint32 now) (ulValueToSend (update (wave sys))) in
  exists sys' log,
    prvQueueSendTask_passes (now :: later) sys = Some (tt, sys') /\
    wave sys' = updates (S (length later)) (wave sys) /\
    xQueue sys' = [msg] /\
    attempts sys' = attempts sys ++ (msg, pdPASS) :: log /\
    length log = length later /\
    Forall (fun attempt => snd attempt = errQUEUE_FULL) log.
Proof.
  intros Hempty msg.
  cbn [prvQueueSendTask_passes].
  unfold bind at 1. unfold vTaskDelayUntil.
  unfold bind at 1. rewrite body_in_general.
  cbn [wave xQueue xTickCount attempts]. rewrite Hempty.
  cbn [length Z.of_nat app]. change (0 <? mainQUEUE_LENGTH) with true. cbv iota.
  fold msg.
  match goal with
  | |- context [prvQueueSendTask_passes later ?s] =>
      destruct (passes_on_full_queue later s) as
        (sys' & log & Hrun & Hwave & Hqueue & Hlog & Hlen & Hall)
  end.
  - reflexivity.
  - cbn [wave xQueue attempts] in *.
    exists sys', log. split; [exact Hrun |].
    split; [exact Hwave |]. split; [exact Hqueue |].
    split; [rewrite Hlog, <- app_assoc; reflexivity |].
    split; assumption.
Qed.

Lemma stalled_receiver_keeps_oldest_example :
  let sys := {| wave := wave_init; xQueue := [];
                xTickCount := 0; attempts := [] |} in
  let msg := encode (to_uint32 1000) (ulValueToSend (update (wave sys))) in
  exists sys' log,
    prvQueueSendTask_passes (1000 :: [2000; 3000]) sys = Some (tt, sys') /\
    wave sys' = updates (S (length [2000; 3000])) (wave sys) /\
    xQueue sys' = [msg] /\
    attempts sys' = attempts sys ++ (msg, pdPASS) :: log /\
    length log = length [2000; 3000] /\
    Forall (fun attempt => snd attempt = errQUEUE_FULL) log.
Proof.
  apply (stalled_receiver_keeps_oldest
           {| wave := wave_init; xQueue := [];
              xTickCount := 0; attempts := [] |} 1000 [2000; 3000]).
  reflexivity.
Defined.
